(* Shallow embedding of index.js (contentful-find-case-sensitive):
   field normalisation (extractStringContent), the case-sensitive match
   (processStringValue, makeSnippet), the per-entry field loop and the
   paginated do/while driver (searchContentful), and the start-up checks. *)

From Stdlib Require Import List Arith Lia ZArith Bool String Ascii.
Import ListNotations.
Set Warnings "-register-all".

(* ------------------------------------------------------------------ *)
(** * JavaScript values *)

(** A JavaScript string is a sequence of UTF-16 code units. *)
Definition jsstr := list Z.

(** String literal helper: an ASCII literal as code units. *)
Definition js (s : string) : jsstr :=
  map (fun c => Z.of_nat (nat_of_ascii c)) (list_ascii_of_string s).

(** "…" (U+2026), "[" and "]". *)
Definition ellipsis : Z := 8230.
Definition lbracket : Z := 91.
Definition rbracket : Z := 93.

(** JSON-shaped values as delivered by the content API.  Objects are
    association lists (own properties, in insertion order). *)
Inductive jsval : Type :=
| JUndef
| JNull
| JBool (b : bool)
| JNum (z : Z)
| JStr (s : jsstr)
| JArr (l : list jsval)
| JObj (kvs : list (jsstr * jsval)).

Definition truthy_str (s : jsstr) : bool :=
  match s with [] => false | _ => true end.

(** Truthiness ([if (v)]); NaN is not modelled. *)
Definition truthy (v : jsval) : bool :=
  match v with
  | JUndef | JNull => false
  | JBool b => b
  | JNum z => negb (Z.eqb z 0)
  | JStr s => truthy_str s
  | JArr _ | JObj _ => true
  end.

(** [typeof v === "object"]. *)
Definition is_object_type (v : jsval) : bool :=
  match v with JNull | JArr _ | JObj _ => true | _ => false end.

Fixpoint jsstr_eqb (a b : jsstr) : bool :=
  match a, b with
  | [], [] => true
  | x :: a', y :: b' => Z.eqb x y && jsstr_eqb a' b'
  | _, _ => false
  end.

(** Own-property lookup on an object literal; [undefined] when absent. *)
Fixpoint get (kvs : list (jsstr * jsval)) (k : jsstr) : jsval :=
  match kvs with
  | [] => JUndef
  | (k', v) :: rest => if jsstr_eqb k k' then v else get rest k
  end.

(** [k in obj] (own keys only). *)
Fixpoint has_key (kvs : list (jsstr * jsval)) (k : jsstr) : bool :=
  match kvs with
  | [] => false
  | (k', _) :: rest => jsstr_eqb k k' || has_key rest k
  end.

(** [v.p]: property access on an object; arrays and primitives carry no
    [nodeType]/[content] property. *)
Definition prop (v : jsval) (p : jsstr) : jsval :=
  match v with JObj kvs => get kvs p | _ => JUndef end.

(** [s.slice(a, b)] for 0 <= a <= b. *)
Definition slice (s : jsstr) (a b : nat) : jsstr := firstn (b - a) (skipn a s).

(** [s.startsWith(t)]. *)
Fixpoint starts_with (t s : jsstr) : bool :=
  match t, s with
  | [], _ => true
  | x :: t', y :: s' => Z.eqb x y && starts_with t' s'
  | _ :: _, [] => false
  end.

(** [s.indexOf(t)], [None] for -1. *)
Fixpoint index_of_from (t s : jsstr) (i : nat) : option nat :=
  if starts_with t s then Some i
  else match s with
       | [] => None
       | _ :: s' => index_of_from t s' (S i)
       end.

Definition index_of (t s : jsstr) : option nat := index_of_from t s 0.

(** The term occurs in [s] at offset [i]. *)
Definition occurs_at (t s : jsstr) (i : nat) : Prop := starts_with t (skipn i s) = true.

Definition infix (t s : jsstr) : Prop := exists a b, s = a ++ t ++ b.

(* ------------------------------------------------------------------ *)
(** * Entries and rows *)

(** [entry.sys]: its id and [contentType?.sys.id].  A [contentType] that
    is present but has no [sys] (on which [contentType?.sys.id] throws) is
    not represented: the entries modelled here have a [contentType] that is
    absent or carries [sys]. *)
Record sysinfo := mkSys { sys_id : jsstr; sys_contentType : option jsstr }.

(** An API entry: [entry.sys] and [entry.fields]; [None] stands for a
    missing (undefined/null) property. *)
Record entry := mkEntry {
  sys : option sysinfo;
  fields : option (list (jsstr * jsval)) }.

(** The object pushed onto [rows]. *)
Record row := mkRow {
  row_id : jsstr;
  row_contentType : jsstr;
  row_fieldName : jsstr;
  row_locale : jsstr;
  row_link : jsstr;
  row_snippet : jsstr }.

Inductive exn : Type :=
| TypeError
| TransportError
| ConfigError (msg : jsstr)
| OutOfFuel.

Inductive res (A : Type) : Type :=
| Ok (a : A)
| Err (e : exn).
Arguments Ok {A} a.
Arguments Err {A} e.

Definition pageSize : nat := 1000.

Section Program.

(** The run's globals: [term], [locale], [SPACE_ID], [ENVIRONMENT_ID],
    [DEBUG_MODE]. *)
Variable term : jsstr.
Variable locale : jsstr.
Variable space_id env_id : jsstr.
Variable debug : bool.
(** [documentToPlainTextString]: [None] when it throws. *)
Variable render : jsval -> option jsstr.
(** [client.getEntries({query: term, limit: pageSize, skip, include: 1})]:
    the page of items and the reported total, or a transport failure. *)
Variable api : nat -> res (list entry * nat).

(** extractStringContent (index.js lines 29-110). *)
Definition extractStringContent (fieldValue : jsval) (fieldName : jsstr)
    (loc : jsstr) : option jsstr :=
  match fieldValue with
  | JStr s => Some s                                           (* Case 1 *)
  | JObj kvs =>
      if truthy (get kvs (js "nodeType")) && truthy (get kvs (js "content"))
      then render fieldValue                                    (* Case 2 *)
      else if has_key kvs loc then                              (* Case 3 *)
        let value := get kvs loc in
        if truthy value && is_object_type value
           && truthy (prop value (js "nodeType"))
           && truthy (prop value (js "content"))
        then render value                                       (* Case 3a *)
        else match value with
             | JStr s => Some s                                 (* Case 3b *)
             | _ => None
             end
      else None
  | _ => None
  end.

Definition entryLink (id : jsstr) : jsstr :=
  js "https://app.contentful.com/spaces/" ++ space_id
  ++ js "/environments/" ++ env_id ++ js "/entries/" ++ id.

(** makeSnippet (lines 116-122). *)
Definition makeSnippet (txt : jsstr) (i : nat) : jsstr :=
  let pre := slice txt (i - 30) i in
  let post := slice txt (i + List.length term) (i + List.length term + 30) in
  (if 30 <? i then [ellipsis] else []) ++ pre
  ++ [lbracket] ++ term ++ [rbracket] ++ post
  ++ (if i + List.length term + 30 <? List.length txt then [ellipsis] else []).

(** [entry.sys.contentType?.sys.id || "Unknown"]. *)
Definition contentTypeOf (sy : sysinfo) : jsstr :=
  match sys_contentType sy with
  | Some c => if truthy_str c then c else js "Unknown"
  | None => js "Unknown"
  end.

(** processStringValue (lines 124-163): the new rows and the returned
    boolean; reading [entry.sys.id] throws when [sys] is missing. *)
Definition processStringValue (e : entry) (fieldName value : jsstr)
    (rows : list row) : res (list row * bool) :=
  match index_of term value with
  | Some idx =>
      match sys e with
      | None => Err TypeError
      | Some sy =>
          Ok (rows ++ [mkRow (sys_id sy) (contentTypeOf sy) fieldName locale
                        (entryLink (sys_id sy)) (makeSnippet value idx)], true)
      end
  | None => Ok (rows, false)
  end.

(** The field loop (lines 198-223), with its [break]. *)
Fixpoint field_loop (e : entry) (fs : list (jsstr * jsval)) (rows : list row)
    : res (list row) :=
  match fs with
  | [] => Ok rows
  | (fieldName, fieldValue) :: fs' =>
      match extractStringContent fieldValue fieldName locale with
      | Some value =>
          if truthy_str value then
            match processStringValue e fieldName value rows with
            | Err x => Err x
            | Ok (rows', true) => Ok rows'
            | Ok (rows', false) => field_loop e fs' rows'
            end
          else field_loop e fs' rows
      | None => field_loop e fs' rows
      end
  end.

(** One iteration of the entry loop (lines 192-224): the debug log reads
    [entry.sys.id] (and [entry.sys.contentType?.sys.id], which cannot throw
    on the entries of [sysinfo]); [Object.entries(entry.fields)] throws on
    a missing [fields]. *)
Definition process_entry (e : entry) (rows : list row) : res (list row) :=
  match (if debug then match sys e with None => false | Some _ => true end
         else true) with
  | false => Err TypeError
  | true =>
      match fields e with
      | None => Err TypeError
      | Some fs => field_loop e fs rows
      end
  end.

Fixpoint process_items (items : list entry) (rows : list row) : res (list row) :=
  match items with
  | [] => Ok rows
  | e :: items' =>
      match process_entry e rows with
      | Err x => Err x
      | Ok rows' => process_items items' rows'
      end
  end.

(** The do/while loop of searchContentful (lines 177-227).  Besides the
    outcome it returns the trace of [skip] values sent to the API; [fuel]
    bounds the number of iterations. *)
Fixpoint pages (fuel skip : nat) (rows : list row) (reqs : list nat)
    : res (list row) * list nat :=
  match fuel with
  | 0 => (Err OutOfFuel, reqs)
  | S fuel' =>
      let reqs' := reqs ++ [skip] in
      match api skip with
      | Err x => (Err x, reqs')
      | Ok (items, total) =>
          match process_items items rows with
          | Err x => (Err x, reqs')
          | Ok rows' =>
              let skip' := skip + pageSize in
              if skip' <? total then pages fuel' skip' rows' reqs'
              else (Ok rows', reqs')
          end
      end
  end.

Definition searchContentful (fuel : nat) : res (list row) * list nat :=
  pages fuel 0 [] [].

End Program.

(** [process.argv[3] || "en-US"]. *)
Definition locale_of (argv3 : option jsstr) : jsstr :=
  match argv3 with
  | Some s => if truthy_str s then s else js "en-US"
  | None => js "en-US"
  end.

Definition truthy_opt (v : option jsstr) : bool :=
  match v with Some s => truthy_str s | None => false end.

(** Template literal interpolation of a possibly undefined variable. *)
Definition interp (v : option jsstr) : jsstr :=
  match v with Some s => s | None => js "undefined" end.

Definition quote : Z := 34.

Definition usage_msg : jsstr :=
  js "Usage: node index.js " ++ [quote] ++ js "string to search" ++ [quote]
  ++ js " [locale]".

Definition config_msg : jsstr :=
  js "Set SPACE_ID and CPA_TOKEN and ENVIRONMENT_ID env vars.".

(** The module's top level (lines 8-23, 165-230): the [term] check, the
    credentials check, then the search.  [argv2], [argv3] and the three
    environment variables are [None] when undefined. *)
Definition main (render : jsval -> option jsstr)
    (api : nat -> res (list entry * nat)) (debug : bool) (fuel : nat)
    (argv2 argv3 : option jsstr) (SPACE_ID CPA_TOKEN ENVIRONMENT_ID : option jsstr)
    : res (list row) * list nat :=
  if truthy_opt argv2 then
    if negb (truthy_opt SPACE_ID) || negb (truthy_opt CPA_TOKEN)
    then (Err (ConfigError config_msg), [])
    else searchContentful (interp argv2) (locale_of argv3) (interp SPACE_ID)
           (interp ENVIRONMENT_ID) debug render api fuel
  else (Err (ConfigError usage_msg), []).

(* ------------------------------------------------------------------ *)
(** * The DEBUG context line and the two earlier loop variants *)

(** [s.substring(a, b)] for non-negative [a], [b]: both clamped to the
    length, swapped when [a > b]. *)
Definition substring (s : jsstr) (a b : nat) : jsstr :=
  let a' := Nat.min a (List.length s) in
  let b' := Nat.min b (List.length s) in
  slice s (Nat.min a' b') (Nat.max a' b').

(** The rows of the two variants carry no content type and no locale. *)
Record row1 := mkRow1 {
  row1_id : jsstr;
  row1_fieldName : jsstr;
  row1_link : jsstr;
  row1_snippet : jsstr }.

(** [rows.at(-1).id], [None] for an empty [rows]. *)
Fixpoint last_id (rows : list row1) : option jsstr :=
  match rows with
  | [] => None
  | [r] => Some (row1_id r)
  | _ :: rows' => last_id rows'
  end.

(** [rows.length && rows.at(-1).id === e.sys.id]. *)
Definition same_as_last (id : jsstr) (rows : list row1) : bool :=
  match last_id rows with Some i => jsstr_eqb i id | None => false end.

Section Variants.

Variable term locale space_id env_id : jsstr.
Variable render : jsval -> option jsstr.

(** The "Context" line logged by processStringValue under DEBUG_MODE
    (index.js lines 131-144). *)
Definition debugContext (value : jsstr) (idx : nat) : jsstr :=
  let start := idx - 30 in
  let end_ := Nat.min (List.length value) (idx + List.length term + 30) in
  let context :=
    substring value start idx ++ [lbracket]
    ++ substring value idx (idx + List.length term) ++ [rbracket]
    ++ substring value (idx + List.length term) end_ in
  (if 0 <? start then js "..." else []) ++ context
  ++ (if end_ <? List.length value then js "..." else []).

Definition mkRow1' (id fieldName value : jsstr) (idx : nat) : row1 :=
  mkRow1 id fieldName (entryLink space_id env_id id) (makeSnippet term value idx).

(** The field loop of the part_001 variant (lines 207-262): the match is
    inlined, a match is pushed and [break]s, and after a field without a
    match the loop stops when the last row already carries this entry's
    id.  extractStringContent of part_001 is the one of index.js with its
    logging made unconditional. *)
Fixpoint field_loop_001 (id : jsstr) (fs : list (jsstr * jsval)) (rows : list row1)
    : list row1 :=
  match fs with
  | [] => rows
  | (fieldName, fieldValue) :: fs' =>
      let next := if same_as_last id rows then rows else field_loop_001 id fs' rows in
      match extractStringContent render fieldValue fieldName locale with
      | Some value =>
          if truthy_str value then
            match index_of term value with
            | Some idx => rows ++ [mkRow1' id fieldName value idx]
            | None => next
            end
          else next
      | None => next
      end
  end.

(** processStringValue of part_002 (lines 34-108); its boolean result is
    ignored by every caller. *)
Definition processStringValue_002 (id fieldName value : jsstr) (rows : list row1)
    : list row1 :=
  match index_of term value with
  | Some idx => rows ++ [mkRow1' id fieldName value idx]
  | None => rows
  end.

(** The field loop of the part_002 variant (lines 170-344).  Direct
    strings and rich text go through processStringValue and [continue]
    (skipping the duplicate check); a localized string is matched inline
    and [break]s on a match. *)
Fixpoint field_loop_002 (id : jsstr) (fs : list (jsstr * jsval)) (rows : list row1)
    : list row1 :=
  match fs with
  | [] => rows
  | (fieldName, fieldValue) :: fs' =>
      let next := if same_as_last id rows then rows else field_loop_002 id fs' rows in
      match fieldValue with
      | JStr s => field_loop_002 id fs' (processStringValue_002 id fieldName s rows)
      | JObj kvs =>
          if truthy (get kvs (js "nodeType")) && truthy (get kvs (js "content")) then
            field_loop_002 id fs'
              (match render fieldValue with
               | Some plainText => processStringValue_002 id fieldName plainText rows
               | None => rows
               end)
          else if has_key kvs locale then
            let value := get kvs locale in
            if truthy value && is_object_type value
               && truthy (prop value (js "nodeType"))
               && truthy (prop value (js "content"))
            then
              field_loop_002 id fs'
                (match render value with
                 | Some plainText => processStringValue_002 id fieldName plainText rows
                 | None => rows
                 end)
            else match value with
                 | JStr s =>
                     match index_of term s with
                     | Some idx => rows ++ [mkRow1' id fieldName s idx]
                     | None => next
                     end
                 | _ => next
                 end
          else next
      | _ => next
      end
  end.

(** The entry loop shared by both variants (part_001 lines 187-205,
    part_002 lines 151-169): the logging in the try block reads
    [e.sys.id] and [Object.keys(e.fields)]; when either throws the entry
    is skipped with [continue]. *)
Fixpoint process_items_var (loop : jsstr -> list (jsstr * jsval) -> list row1 -> list row1)
    (items : list entry) (rows : list row1) : list row1 :=
  match items with
  | [] => rows
  | e :: items' =>
      match sys e, fields e with
      | Some sy, Some fs => process_items_var loop items' (loop (sys_id sy) fs rows)
      | _, _ => process_items_var loop items' rows
      end
  end.

Definition process_items_001 := process_items_var field_loop_001.
Definition process_items_002 := process_items_var field_loop_002.

End Variants.

(* ------------------------------------------------------------------ *)
(** * String search *)

Lemma starts_with_app (t s : jsstr) :
  starts_with t s = true <-> exists b, s = t ++ b.
Proof.
  revert s; induction t as [|x t IH]; intros s; simpl.
  - split; [intros _; now exists s | auto].
  - destruct s as [|y s].
    + split; [discriminate | intros [b Hb]; discriminate].
    + rewrite andb_true_iff, Z.eqb_eq, IH. split.
      * intros [-> [b ->]]. now exists b.
      * intros [b Hb]. injection Hb as -> ->. eauto.
Qed.

Lemma starts_with_length (t s : jsstr) :
  starts_with t s = true -> List.length t <= List.length s.
Proof.
  intros H. apply starts_with_app in H as [b ->].
  rewrite length_app. lia.
Qed.

Lemma index_of_from_some (t s : jsstr) (k i : nat) :
  index_of_from t s k = Some i ->
  k <= i /\ starts_with t (skipn (i - k) s) = true /\
  (forall j, k <= j < i -> starts_with t (skipn (j - k) s) = false).
Proof.
  revert k; induction s as [|y s IH]; intros k H; simpl in H.
  - destruct (starts_with t []) eqn:E; [|discriminate].
    injection H as <-. rewrite Nat.sub_diag. split; [lia|split; [exact E|lia]].
  - destruct (starts_with t (y :: s)) eqn:E.
    + injection H as <-. rewrite Nat.sub_diag. split; [lia|split; [exact E|lia]].
    + apply IH in H as (Hle & Hs & Hlt).
      replace (i - k) with (S (i - S k)) by lia.
      split; [lia|split; [exact Hs|]].
      intros j Hj. destruct (Nat.eq_dec j k) as [->|Hne].
      * now rewrite Nat.sub_diag.
      * replace (j - k) with (S (j - S k)) by lia. apply Hlt. lia.
Qed.

Lemma index_of_from_none (t s : jsstr) (k : nat) :
  index_of_from t s k = None -> forall j, starts_with t (skipn j s) = false.
Proof.
  revert k; induction s as [|y s IH]; intros k H j; simpl in H.
  - destruct (starts_with t []) eqn:E; [discriminate|].
    now rewrite skipn_nil.
  - destruct (starts_with t (y :: s)) eqn:E; [discriminate|].
    destruct j as [|j]; [exact E|]. simpl. exact (IH _ H j).
Qed.

Lemma infix_occurs (t s : jsstr) : infix t s <-> exists j, occurs_at t s j.
Proof.
  unfold occurs_at. split.
  - intros (a & b & ->). exists (List.length a).
    rewrite skipn_app, skipn_all, Nat.sub_diag. simpl.
    apply starts_with_app. eauto.
  - intros [j Hj]. apply starts_with_app in Hj as [b Hb].
    exists (firstn j s), b. rewrite <- Hb. symmetry. apply firstn_skipn.
Qed.

(** [indexOf] finds an occurrence exactly when the term is a substring. *)
Lemma index_of_infix (t s : jsstr) :
  (exists i, index_of t s = Some i) <-> infix t s.
Proof.
  rewrite infix_occurs. unfold index_of, occurs_at. split.
  - intros [i Hi]. apply index_of_from_some in Hi as (_ & Hs & _).
    exists i. now rewrite Nat.sub_0_r in Hs.
  - intros [j Hj]. destruct (index_of_from t s 0) as [i|] eqn:E; [eauto|].
    rewrite (index_of_from_none _ _ _ E j) in Hj. discriminate.
Qed.

(** [indexOf] returns the leftmost occurrence. *)
Lemma index_of_leftmost (t s : jsstr) (i : nat) :
  index_of t s = Some i ->
  occurs_at t s i /\ (forall j, j < i -> ~ occurs_at t s j).
Proof.
  unfold index_of, occurs_at. intros H.
  apply index_of_from_some in H as (_ & Hs & Hlt).
  rewrite Nat.sub_0_r in Hs. split; [exact Hs|].
  intros j Hj Hocc. specialize (Hlt j ltac:(lia)).
  rewrite Nat.sub_0_r in Hlt. congruence.
Qed.

Example index_of_ex1 : index_of (js "Foo") (js "a foo and Foo") = Some 10.
Proof. reflexivity. Qed.

Example makeSnippet_ex1 :
  makeSnippet (js "ProductName") (js "The ProductName Pro") 4
  = js "The [ProductName] Pro".
Proof. reflexivity. Qed.

(* ------------------------------------------------------------------ *)
(** * Snippets *)

(** C2: for a match of [term] at offset [i] in [txt], the snippet is an
    optional leading "…", the up-to-30 characters before the match, the
    term in square brackets, the up-to-30 characters after it and an
    optional trailing "…" ([term] is non-empty, as the start-up check
    guarantees); the leading "…" is present iff [i > 30], the
    trailing one iff more than 30 characters follow the match. *)
Theorem makeSnippet_spec (term txt : jsstr) (i : nat)
    (Hterm : term <> []) (Hmatch : occurs_at term txt i) :
  exists lead pre post trail,
    makeSnippet term txt i
      = lead ++ pre ++ [lbracket] ++ term ++ [rbracket] ++ post ++ trail
    /\ (exists a, firstn i txt = a ++ pre)
    /\ List.length pre = Nat.min i 30
    /\ (exists b, skipn (i + List.length term) txt = post ++ b)
    /\ List.length post = Nat.min 30 (List.length txt - (i + List.length term))
    /\ ((lead = [ellipsis] /\ 30 < i) \/ (lead = [] /\ i <= 30))
    /\ ((trail = [ellipsis] /\ 30 < List.length txt - (i + List.length term))
        \/ (trail = [] /\ List.length txt - (i + List.length term) <= 30)).
Proof.
  unfold occurs_at in Hmatch. apply starts_with_length in Hmatch.
  rewrite length_skipn in Hmatch.
  assert (List.length term <> 0) by (now rewrite length_zero_iff_nil).
  unfold makeSnippet, slice.
  eexists _, _, _, _. split; [reflexivity|].
  split.
  { exists (firstn (i - 30) (firstn i txt)).
    rewrite <- skipn_firstn_comm. symmetry. apply firstn_skipn. }
  split.
  { rewrite length_firstn, length_skipn. lia. }
  split.
  { exists (skipn 30 (skipn (i + List.length term) txt)).
    replace (i + List.length term + 30 - (i + List.length term)) with 30 by lia.
    symmetry. apply firstn_skipn. }
  split.
  { rewrite length_firstn, length_skipn. lia. }
  split.
  - destruct (Nat.ltb_spec 30 i); [left|right]; split; auto; lia.
  - destruct (Nat.ltb_spec (i + List.length term + 30) (List.length txt));
      [left|right]; split; auto; lia.
Qed.

(** Witness of C2 at the match of the README example. *)
Lemma makeSnippet_spec_witness :
  js "ProductName" <> [] /\
  occurs_at (js "ProductName") (js "The ProductName Pro") 4 /\
  exists lead pre post trail,
    makeSnippet (js "ProductName") (js "The ProductName Pro") 4
      = lead ++ pre ++ [lbracket] ++ js "ProductName" ++ [rbracket] ++ post ++ trail
    /\ (exists a, firstn 4 (js "The ProductName Pro") = a ++ pre)
    /\ List.length pre = Nat.min 4 30
    /\ (exists b, skipn (4 + List.length (js "ProductName")) (js "The ProductName Pro") = post ++ b)
    /\ List.length post = Nat.min 30 (List.length (js "The ProductName Pro") - (4 + List.length (js "ProductName")))
    /\ ((lead = [ellipsis] /\ 30 < 4) \/ (lead = [] /\ 4 <= 30))
    /\ ((trail = [ellipsis] /\ 30 < List.length (js "The ProductName Pro") - (4 + List.length (js "ProductName")))
        \/ (trail = [] /\ List.length (js "The ProductName Pro") - (4 + List.length (js "ProductName")) <= 30)).
Proof.
  split; [discriminate|]. split; [reflexivity|].
  apply makeSnippet_spec; [discriminate | reflexivity].
Defined.

(* ------------------------------------------------------------------ *)
(** * Field normalisation *)

(** The rich-text test of case 3a: [v && typeof v === "object" &&
    v.nodeType && v.content]; on an object literal it coincides with the
    test of case 2. *)
Definition richDoc (v : jsval) : bool :=
  truthy v && is_object_type v && truthy (prop v (js "nodeType"))
  && truthy (prop v (js "content")).

Lemma richDoc_obj (v : jsval) :
  richDoc v = true ->
  exists kvs, v = JObj kvs /\
    truthy (get kvs (js "nodeType")) && truthy (get kvs (js "content")) = true.
Proof.
  unfold richDoc. destruct v; simpl; rewrite ?andb_false_r; try discriminate.
  intros H. eexists; split; [reflexivity|]. exact H.
Qed.

(** C7: on a locale map (an object that is not itself a rich-text
    document), normalisation gives nothing when the locale is not a key,
    the string when the locale maps to a string, and nothing when the
    locale maps to a value that is neither a string nor a rich-text
    document. *)
Theorem extractStringContent_locale_map (render : jsval -> option jsstr)
    (kvs : list (jsstr * jsval)) (fieldName loc : jsstr)
    (Hmap : richDoc (JObj kvs) = false) :
  (has_key kvs loc = false ->
     extractStringContent render (JObj kvs) fieldName loc = None) /\
  (forall s, has_key kvs loc = true -> get kvs loc = JStr s ->
     extractStringContent render (JObj kvs) fieldName loc = Some s) /\
  (has_key kvs loc = true -> (forall s, get kvs loc <> JStr s) ->
     richDoc (get kvs loc) = false ->
     extractStringContent render (JObj kvs) fieldName loc = None).
Proof.
  unfold richDoc in Hmap. simpl in Hmap.
  unfold extractStringContent. rewrite Hmap.
  split; [intros -> ; reflexivity|]. split.
  - intros s -> ->. simpl. now rewrite andb_false_r.
  - intros -> Hns Hr. unfold richDoc in Hr. rewrite Hr.
    destruct (get kvs loc); try reflexivity. exfalso. eapply Hns. reflexivity.
Qed.

Lemma extractStringContent_locale_map_witness :
  richDoc (JObj [(js "en-US", JStr (js "Hallo"))]) = false /\
  ((has_key [(js "en-US", JStr (js "Hallo"))] (js "de-DE") = false ->
     extractStringContent (fun _ => None) (JObj [(js "en-US", JStr (js "Hallo"))])
       (js "title") (js "de-DE") = None) /\
   (forall s, has_key [(js "en-US", JStr (js "Hallo"))] (js "de-DE") = true ->
     get [(js "en-US", JStr (js "Hallo"))] (js "de-DE") = JStr s ->
     extractStringContent (fun _ => None) (JObj [(js "en-US", JStr (js "Hallo"))])
       (js "title") (js "de-DE") = Some s) /\
   (has_key [(js "en-US", JStr (js "Hallo"))] (js "de-DE") = true ->
     (forall s, get [(js "en-US", JStr (js "Hallo"))] (js "de-DE") <> JStr s) ->
     richDoc (get [(js "en-US", JStr (js "Hallo"))] (js "de-DE")) = false ->
     extractStringContent (fun _ => None) (JObj [(js "en-US", JStr (js "Hallo"))])
       (js "title") (js "de-DE") = None)).
Proof.
  split; [reflexivity|].
  apply extractStringContent_locale_map. reflexivity.
Defined.

(** A field that normalises to nothing is skipped: the loop goes on with
    the next field. *)
Lemma field_loop_skip (term locale space_id env_id : jsstr)
    (render : jsval -> option jsstr) (e : entry) (name : jsstr) (fv : jsval)
    (rest : list (jsstr * jsval)) (rows : list row) :
  extractStringContent render fv name locale = None ->
  field_loop term locale space_id env_id render e ((name, fv) :: rest) rows
  = field_loop term locale space_id env_id render e rest rows.
Proof. intros H. simpl. now rewrite H. Qed.

(** C8: a rich-text document [d], as the field value or under the
    requested locale of a locale map, normalises to the renderer's output
    ([None] when the renderer throws); when it throws the field is skipped
    and the entry's remaining fields are examined. *)
Theorem extractStringContent_rich (term locale space_id env_id : jsstr)
    (render : jsval -> option jsstr) (d : jsval) (name : jsstr)
    (Hd : richDoc d = true) :
  extractStringContent render d name locale = render d /\
  (forall kvs, richDoc (JObj kvs) = false -> has_key kvs locale = true ->
     get kvs locale = d ->
     extractStringContent render (JObj kvs) name locale = render d) /\
  (render d = None -> forall e rest rows,
     field_loop term locale space_id env_id render e ((name, d) :: rest) rows
     = field_loop term locale space_id env_id render e rest rows /\
     (forall kvs, richDoc (JObj kvs) = false -> has_key kvs locale = true ->
        get kvs locale = d ->
        field_loop term locale space_id env_id render e ((name, JObj kvs) :: rest) rows
        = field_loop term locale space_id env_id render e rest rows)).
Proof.
  assert (Hdirect : extractStringContent render d name locale = render d).
  { destruct (richDoc_obj d Hd) as (kvs & -> & Hk).
    unfold extractStringContent. now rewrite Hk. }
  assert (Hmap : forall kvs, richDoc (JObj kvs) = false -> has_key kvs locale = true ->
     get kvs locale = d ->
     extractStringContent render (JObj kvs) name locale = render d).
  { intros kvs Hn Hk Hg. unfold richDoc in Hn. simpl in Hn.
    unfold extractStringContent. rewrite Hn, Hk, Hg.
    unfold richDoc in Hd. now rewrite Hd. }
  split; [exact Hdirect|]. split; [exact Hmap|].
  intros Hnone e rest rows. split.
  - apply field_loop_skip. now rewrite Hdirect.
  - intros kvs Hn Hk Hg. apply field_loop_skip. now rewrite (Hmap kvs Hn Hk Hg).
Qed.

Definition doc0 : jsval :=
  JObj [(js "nodeType", JStr (js "document")); (js "content", JArr [])].

Lemma extractStringContent_rich_witness :
  richDoc doc0 = true /\
  (extractStringContent (fun _ => None) doc0 (js "body") (js "en-US") = None /\
  (forall kvs, richDoc (JObj kvs) = false -> has_key kvs (js "en-US") = true ->
     get kvs (js "en-US") = doc0 ->
     extractStringContent (fun _ => None) (JObj kvs) (js "body") (js "en-US") = None) /\
  ((fun _ : jsval => @None jsstr) doc0 = None -> forall e rest rows,
     field_loop (js "Foo") (js "en-US") (js "s") (js "master") (fun _ => None) e
       ((js "body", doc0) :: rest) rows
     = field_loop (js "Foo") (js "en-US") (js "s") (js "master") (fun _ => None) e rest rows /\
     (forall kvs, richDoc (JObj kvs) = false -> has_key kvs (js "en-US") = true ->
        get kvs (js "en-US") = doc0 ->
        field_loop (js "Foo") (js "en-US") (js "s") (js "master") (fun _ => None) e
          ((js "body", JObj kvs) :: rest) rows
        = field_loop (js "Foo") (js "en-US") (js "s") (js "master") (fun _ => None) e rest rows))).
Proof.
  split; [reflexivity|].
  apply (extractStringContent_rich (js "Foo") (js "en-US") (js "s") (js "master")
           (fun _ => None) doc0 (js "body")).
  reflexivity.
Defined.

(* ------------------------------------------------------------------ *)
(** * The match test and the field loop *)

(** Whether a field yields a match: its normalised value is a non-empty
    string in which [indexOf(term)] finds an offset. *)
Definition field_hit (term locale : jsstr) (render : jsval -> option jsstr)
    (f : jsstr * jsval) : option nat :=
  match extractStringContent render (snd f) (fst f) locale with
  | Some v => if truthy_str v then index_of term v else None
  | None => None
  end.

(** C10: the snippet of a match record is built around the leftmost
    occurrence of the term in the normalised string. *)
Theorem processStringValue_leftmost (term locale space_id env_id : jsstr)
    (e : entry) (fieldName value : jsstr) (rows rows' : list row)
    (H : processStringValue term locale space_id env_id e fieldName value rows
         = Ok (rows', true)) :
  exists r i, rows' = rows ++ [r] /\ row_snippet r = makeSnippet term value i
    /\ occurs_at term value i /\ (forall j, j < i -> ~ occurs_at term value j).
Proof.
  unfold processStringValue in H.
  destruct (index_of term value) as [i|] eqn:E; [|discriminate].
  destruct (sys e) as [sy|]; [|discriminate].
  injection H as <-.
  apply index_of_leftmost in E as [Hocc Hmin].
  eexists _, i. split; [reflexivity|]. simpl. auto.
Qed.

Lemma processStringValue_leftmost_witness :
  processStringValue (js "Foo") (js "en-US") (js "s") (js "master")
    (mkEntry (Some (mkSys (js "e1") None)) None) (js "title") (js "Foo and Foo") []
  = Ok ([mkRow (js "e1") (js "Unknown") (js "title") (js "en-US")
           (entryLink (js "s") (js "master") (js "e1"))
           (makeSnippet (js "Foo") (js "Foo and Foo") 0)], true) /\
  exists r i, [mkRow (js "e1") (js "Unknown") (js "title") (js "en-US")
           (entryLink (js "s") (js "master") (js "e1"))
           (makeSnippet (js "Foo") (js "Foo and Foo") 0)] = [] ++ [r]
    /\ row_snippet r = makeSnippet (js "Foo") (js "Foo and Foo") i
    /\ occurs_at (js "Foo") (js "Foo and Foo") i
    /\ (forall j, j < i -> ~ occurs_at (js "Foo") (js "Foo and Foo") j).
Proof.
  split; [reflexivity|].
  apply (processStringValue_leftmost (js "Foo") (js "en-US") (js "s") (js "master")
           (mkEntry (Some (mkSys (js "e1") None)) None) (js "title") (js "Foo and Foo") []).
  reflexivity.
Defined.

Lemma field_loop_sys (term locale space_id env_id : jsstr)
    (render : jsval -> option jsstr) (e1 e2 : entry) fs rows :
  sys e1 = sys e2 ->
  field_loop term locale space_id env_id render e1 fs rows
  = field_loop term locale space_id env_id render e2 fs rows.
Proof.
  intros Hs. revert rows; induction fs as [|[n fv] fs IH]; intros rows; simpl;
    [reflexivity|].
  unfold processStringValue. rewrite Hs.
  destruct (extractStringContent render fv n locale) as [v|]; [|apply IH].
  destruct (truthy_str v); [|apply IH].
  destruct (index_of term v); [|apply IH].
  destruct (sys e2); reflexivity.
Qed.

Section FieldLoop.

Variables term locale space_id env_id : jsstr.
Variable render : jsval -> option jsstr.

Lemma field_loop_spec (e : entry) (fs : list (jsstr * jsval)) (rows rows' : list row) :
  field_loop term locale space_id env_id render e fs rows = Ok rows' ->
  (rows' = rows /\ Forall (fun f => field_hit term locale render f = None) fs)
  \/ exists pre name fv post r v i,
       fs = pre ++ (name, fv) :: post
       /\ Forall (fun f => field_hit term locale render f = None) pre
       /\ extractStringContent render fv name locale = Some v
       /\ truthy_str v = true /\ index_of term v = Some i
       /\ rows' = rows ++ [r] /\ row_fieldName r = name /\ row_locale r = locale
       /\ row_snippet r = makeSnippet term v i
       /\ forall post', field_loop term locale space_id env_id render e
                          (pre ++ (name, fv) :: post') rows = Ok rows'.
Proof.
  revert rows. induction fs as [|[n fv] fs IH]; intros rows H; simpl in H.
  - injection H as <-. left. split; [reflexivity|constructor].
  - destruct (extractStringContent render fv n locale) as [v|] eqn:Ex.
    + destruct (truthy_str v) eqn:Tv.
      * unfold processStringValue in H.
        destruct (index_of term v) as [i|] eqn:Ei.
        -- destruct (sys e) as [sy|] eqn:Es; [|discriminate].
           injection H as <-. right.
           do 2 eexists. exists fv, fs. do 3 eexists.
           rewrite app_nil_l. split; [reflexivity|]. split; [constructor|].
           do 3 (split; [eassumption|]).
           split; [reflexivity|]. split; [reflexivity|]. split; [reflexivity|].
           split; [reflexivity|].
           intros post'. simpl. rewrite Ex, Tv. unfold processStringValue.
           now rewrite Ei, Es.
        -- assert (Hh : field_hit term locale render (n, fv) = None).
           { unfold field_hit. simpl. now rewrite Ex, Tv, Ei. }
           destruct (IH rows H) as [[-> Hall]|(pre & name & fv' & post & r & v' & i' & Hfs & Hpre & Hrest)].
           ++ left. split; [reflexivity|]. now constructor.
           ++ right. exists ((n, fv) :: pre), name, fv', post, r, v', i'.
              rewrite Hfs. split; [reflexivity|]. split; [now constructor|].
              destruct Hrest as (H1 & H2 & H3 & H4 & H5 & H6 & H7 & Hpost).
              repeat (split; [assumption|]).
              intros post'. simpl. rewrite Ex, Tv. unfold processStringValue.
              rewrite Ei. apply Hpost.
      * assert (Hh : field_hit term locale render (n, fv) = None).
        { unfold field_hit. simpl. now rewrite Ex, Tv. }
        destruct (IH rows H) as [[-> Hall]|(pre & name & fv' & post & r & v' & i' & Hfs & Hpre & Hrest)].
        -- left. split; [reflexivity|]. now constructor.
        -- right. exists ((n, fv) :: pre), name, fv', post, r, v', i'.
           rewrite Hfs. split; [reflexivity|]. split; [now constructor|].
           destruct Hrest as (H1 & H2 & H3 & H4 & H5 & H6 & H7 & Hpost).
           repeat (split; [assumption|]).
           intros post'. simpl. rewrite Ex, Tv. apply Hpost.
    + assert (Hh : field_hit term locale render (n, fv) = None).
      { unfold field_hit. simpl. now rewrite Ex. }
      destruct (IH rows H) as [[-> Hall]|(pre & name & fv' & post & r & v' & i' & Hfs & Hpre & Hrest)].
      * left. split; [reflexivity|]. now constructor.
      * right. exists ((n, fv) :: pre), name, fv', post, r, v', i'.
        rewrite Hfs. split; [reflexivity|]. split; [now constructor|].
        destruct Hrest as (H1 & H2 & H3 & H4 & H5 & H6 & H7 & Hpost).
        repeat (split; [assumption|]).
        intros post'. simpl. rewrite Ex. apply Hpost.
Qed.

End FieldLoop.

Lemma infix_truthy (t v : jsstr) : t <> [] -> infix t v -> truthy_str v = true.
Proof.
  intros Ht (a & b & ->). destruct a; [destruct t; [congruence|]|]; reflexivity.
Qed.

(** C1: an entry contributes at most one record.  Either no field
    matches and the rows are unchanged, or the record comes from the first
    matching field in the entry's field order, and the fields after it are
    not looked at: replacing them leaves the outcome unchanged. *)
Theorem process_entry_at_most_one (term locale space_id env_id : jsstr)
    (debug : bool) (render : jsval -> option jsstr) (e : entry)
    (rows rows' : list row)
    (H : process_entry term locale space_id env_id debug render e rows = Ok rows') :
  exists fs, fields e = Some fs /\
  ((rows' = rows /\ Forall (fun f => field_hit term locale render f = None) fs)
   \/ exists pre name fv post r v i,
        fs = pre ++ (name, fv) :: post
        /\ Forall (fun f => field_hit term locale render f = None) pre
        /\ extractStringContent render fv name locale = Some v
        /\ index_of term v = Some i
        /\ rows' = rows ++ [r] /\ row_fieldName r = name
        /\ row_snippet r = makeSnippet term v i
        /\ forall post', process_entry term locale space_id env_id debug render
                           (mkEntry (sys e) (Some (pre ++ (name, fv) :: post'))) rows
                         = Ok rows').
Proof.
  unfold process_entry in H.
  destruct (if debug then match sys e with None => false | Some _ => true end
            else true) eqn:Hdbg; [|discriminate].
  destruct (fields e) as [fs|] eqn:Hf; [|discriminate].
  exists fs. split; [reflexivity|].
  destruct (field_loop_spec term locale space_id env_id render e fs rows rows' H)
    as [Hnone|(pre & name & fv & post & r & v & i & Hfs & Hpre & Hv & Ht & Hi & Hr & Hn & Hl & Hs & Hpost)].
  - left. exact Hnone.
  - right. exists pre, name, fv, post, r, v, i.
    repeat (split; [assumption|]).
    intros post'. unfold process_entry. simpl. rewrite Hdbg.
    rewrite <- (Hpost post'). apply field_loop_sys. reflexivity.
Qed.

Definition entry2 : entry :=
  mkEntry (Some (mkSys (js "e2") (Some (js "page"))))
    (Some [(js "title", JStr (js "Foo one")); (js "body", JStr (js "Foo two"))]).

Lemma process_entry_at_most_one_witness :
  exists rows',
  process_entry (js "Foo") (js "en-US") (js "s") (js "master") false (fun _ => None)
    entry2 [] = Ok rows' /\
  exists fs, fields entry2 = Some fs /\
  ((rows' = [] /\ Forall (fun f => field_hit (js "Foo") (js "en-US") (fun _ => None) f = None) fs)
   \/ exists pre name fv post r v i,
        fs = pre ++ (name, fv) :: post
        /\ Forall (fun f => field_hit (js "Foo") (js "en-US") (fun _ => None) f = None) pre
        /\ extractStringContent (fun _ => None) fv name (js "en-US") = Some v
        /\ index_of (js "Foo") v = Some i
        /\ rows' = [] ++ [r] /\ row_fieldName r = name
        /\ row_snippet r = makeSnippet (js "Foo") v i
        /\ forall post', process_entry (js "Foo") (js "en-US") (js "s") (js "master") false
                           (fun _ => None)
                           (mkEntry (sys entry2) (Some (pre ++ (name, fv) :: post'))) []
                         = Ok rows').
Proof.
  eexists. split; [vm_compute; reflexivity|].
  apply process_entry_at_most_one. vm_compute. reflexivity.
Defined.

(** C6: the authoritative test is case-sensitive.  With term "Foo", an
    entry returned by the coarse query whose only field normalises to a
    string yields a record exactly when that string contains "Foo"; a
    field holding "foo" yields none. *)
Theorem match_case_sensitive (locale space_id env_id : jsstr) (debug : bool)
    (render : jsval -> option jsstr) (sy : sysinfo) (name : jsstr) (fv : jsval) :
  ((exists r, process_entry (js "Foo") locale space_id env_id debug render
                (mkEntry (Some sy) (Some [(name, fv)])) [] = Ok [r])
   <-> exists v, extractStringContent render fv name locale = Some v
                 /\ infix (js "Foo") v)
  /\ process_entry (js "Foo") locale space_id env_id debug render
       (mkEntry (Some sy) (Some [(name, JStr (js "foo"))])) [] = Ok [].
Proof.
  split.
  - unfold process_entry. simpl.
    replace (if debug then true else true) with true by (now destruct debug).
    simpl. split.
    + intros [r Hr].
      destruct (extractStringContent render fv name locale) as [v|]; [|discriminate].
      destruct (truthy_str v); [|discriminate].
      unfold processStringValue in Hr.
      destruct (index_of (js "Foo") v) as [i|] eqn:Ei; [|discriminate].
      exists v. split; [reflexivity|]. apply index_of_infix. eauto.
    + intros (v & Hv & Hinf). rewrite Hv.
      rewrite (infix_truthy (js "Foo") v ltac:(vm_compute; congruence) Hinf).
      apply index_of_infix in Hinf as [i Hi].
      unfold processStringValue. rewrite Hi. eexists. reflexivity.
  - unfold process_entry. simpl. now destruct debug.
Qed.

(* ------------------------------------------------------------------ *)
(** * Pagination *)

(** An entry with both [sys] and [fields]. *)
Definition wf_entry (e : entry) : bool :=
  match sys e, fields e with Some _, Some _ => true | _, _ => false end.

(** [max(1, ceil(total / pageSize))]. *)
Definition page_count (total : nat) : nat :=
  Nat.max 1 ((total + pageSize - 1) / pageSize).

Lemma field_loop_ok (term locale space_id env_id : jsstr)
    (render : jsval -> option jsstr) (e : entry) (sy : sysinfo) fs rows :
  sys e = Some sy ->
  exists rows', field_loop term locale space_id env_id render e fs rows = Ok rows'.
Proof.
  intros Hs. revert rows; induction fs as [|[n fv] fs IH]; intros rows; simpl; [eauto|].
  destruct (extractStringContent render fv n locale) as [v|]; [|apply IH].
  destruct (truthy_str v); [|apply IH].
  unfold processStringValue. destruct (index_of term v); [|apply IH].
  rewrite Hs. eauto.
Qed.

Lemma process_items_ok (term locale space_id env_id : jsstr) (debug : bool)
    (render : jsval -> option jsstr) items rows :
  Forall (fun e => wf_entry e = true) items ->
  exists rows', process_items term locale space_id env_id debug render items rows = Ok rows'.
Proof.
  intros Hall. revert rows; induction Hall as [|e items He _ IH]; intros rows; simpl; [eauto|].
  unfold wf_entry in He. unfold process_entry.
  destruct (sys e) as [sy|] eqn:Hs; [|discriminate].
  destruct (fields e) as [fs|] eqn:Hf; [|discriminate].
  replace (if debug then true else true) with true by (now destruct debug).
  destruct (field_loop_ok term locale space_id env_id render e sy fs rows Hs) as [r Hr].
  rewrite Hr. apply IH.
Qed.

Lemma skip_lt_iff (total m : nat) :
  0 < total -> (m * pageSize < total <-> m < page_count total).
Proof.
  intros Hpos. unfold page_count, pageSize.
  replace (total + 1000 - 1) with (total + 999) by lia.
  pose proof (Nat.div_mod_eq (total + 999) 1000) as Hdm.
  pose proof (Nat.mod_upper_bound (total + 999) 1000 ltac:(lia)) as Hr.
  set (q := (total + 999) / 1000) in *. set (r := (total + 999) mod 1000) in *.
  lia.
Qed.

Lemma skip_ge (total m : nat) :
  m + 1 = page_count total -> total <= (m + 1) * pageSize.
Proof.
  intros Hm. destruct total as [|t]; [lia|].
  destruct (Nat.le_gt_cases (S t) ((m + 1) * pageSize)) as [Hle|Hgt]; [exact Hle|].
  apply skip_lt_iff in Hgt; lia.
Qed.

Section Pagination.

Variables term locale space_id env_id : jsstr.
Variable debug : bool.
Variable render : jsval -> option jsstr.
(** A consistent API: every request reports the same [total], and the
    page at [skip] holds [min(pageSize, total - skip)] well-formed
    entries. *)
Variable total : nat.
Variable items : nat -> list entry.
Hypothesis Hlen : forall s, List.length (items s) = Nat.min pageSize (total - s).
Hypothesis Hwf : forall s, Forall (fun e => wf_entry e = true) (items s).

Let api : nat -> res (list entry * nat) := fun s => Ok (items s, total).

Lemma pages_run (n : nat) :
  forall j fuel rows reqs, j + n = page_count total -> 1 <= n -> n <= fuel ->
  exists rows',
    pages term locale space_id env_id debug render api fuel (j * pageSize) rows reqs
    = (Ok rows', reqs ++ map (fun k => k * pageSize) (seq j n)).
Proof.
  induction n as [|n IH]; intros j fuel rows reqs Hj Hn Hf; [lia|].
  destruct fuel as [|fuel]; [lia|].
  simpl. unfold api at 1.
  destruct (process_items_ok term locale space_id env_id debug render
              (items (j * pageSize)) rows (Hwf _)) as [rows1 Hr].
  rewrite Hr.
  destruct (Nat.ltb_spec (j * pageSize + pageSize) total) as [Hlt|Hge].
  - destruct n as [|n].
    + exfalso.
      assert (Hlt' : (j + 1) * pageSize < total) by (unfold pageSize in *; lia).
      apply (skip_lt_iff total (j + 1)) in Hlt'; [lia|unfold pageSize in *; lia].
    + replace (j * pageSize + pageSize) with (S j * pageSize) by (unfold pageSize; lia).
      destruct (IH (S j) fuel rows1 (reqs ++ [j * pageSize]) ltac:(lia) ltac:(lia)
                  ltac:(lia)) as [rows' Hrun].
      exists rows'. unfold api in Hrun. rewrite Hrun. now rewrite <- app_assoc.
  - destruct n as [|n].
    + exists rows1. reflexivity.
    + exfalso.
      assert (Hpos : 0 < total).
      { destruct total; [|lia]. unfold page_count in Hj. simpl in Hj. lia. }
      assert (Hlt : j + 1 < page_count total) by lia.
      apply (skip_lt_iff total (j + 1) Hpos) in Hlt. lia.
Qed.

Lemma pages_sum (n : nat) :
  forall j, j + n = page_count total -> 1 <= n ->
  list_sum (map (fun s => List.length (items s)) (map (fun k => k * pageSize) (seq j n)))
  = total - j * pageSize.
Proof.
  induction n as [|n IH]; intros j Hj Hn; [lia|].
  unfold list_sum in *; cbn [seq map fold_right]. rewrite Hlen.
  destruct n as [|n].
  - unfold list_sum; cbn [seq map fold_right]. pose proof (skip_ge total j ltac:(lia)).
    unfold pageSize in *. lia.
  - rewrite (IH (S j) ltac:(lia) ltac:(lia)).
    assert (Hpos : 0 < total).
    { destruct total; [|lia]. unfold page_count in Hj. simpl in Hj. lia. }
    assert (Hlt : S j < page_count total) by lia.
    apply (skip_lt_iff total (S j) Hpos) in Hlt.
    unfold pageSize in *. lia.
Qed.

Lemma seq_map_last (N : nat) :
  1 <= N ->
  let l := map (fun k => k * pageSize) (seq 0 N) in
  last l 0 = (N - 1) * pageSize /\
  removelast l = map (fun k => k * pageSize) (seq 0 (N - 1)).
Proof.
  intros HN l. unfold l. destruct N as [|m]; [lia|].
  rewrite seq_S, map_app. cbn [map].
  rewrite last_last, removelast_last. replace (S m - 1) with m by lia.
  split; [f_equal; lia | reflexivity].
Qed.

(** C3: with a constant reported [total], the do/while loop terminates,
    sends the skips [0, 1000, 2000, ...], [max(1, ceil(total / 1000))]
    requests in all, stops at the first skip that reaches [total], and
    the pages together hold exactly [total] entries; with [total = 0] the
    single request yields no rows. *)
Theorem pagination_requests (fuel : nat) (Hfuel : page_count total <= fuel) :
  let run := searchContentful term locale space_id env_id debug render
               (fun s => Ok (items s, total)) fuel in
  (exists rows, fst run = Ok rows /\ (total = 0 -> rows = []))
  /\ snd run = map (fun k => k * pageSize) (seq 0 (page_count total))
  /\ List.length (snd run) = Nat.max 1 ((total + pageSize - 1) / pageSize)
  /\ Forall (fun s => s + pageSize < total) (removelast (snd run))
  /\ total <= last (snd run) 0 + pageSize
  /\ list_sum (map (fun s => List.length (items s)) (snd run)) = total.
Proof.
  assert (H1 : 1 <= page_count total) by (unfold page_count; lia).
  destruct (pages_run (page_count total) 0 fuel [] [] ltac:(lia) H1 Hfuel)
    as [rows Hrun].
  rewrite Nat.mul_0_l, app_nil_l in Hrun.
  intros run. unfold run, searchContentful. unfold api in Hrun. rewrite Hrun.
  simpl fst. simpl snd.
  destruct (seq_map_last (page_count total) H1) as [Hlast Hrem].
  split; [|split; [reflexivity|split; [|split; [|split]]]].
  - exists rows. split; [reflexivity|]. intros H0.
    assert (Hi0 : items 0 = []).
    { apply length_zero_iff_nil. rewrite Hlen, H0. reflexivity. }
    destruct fuel as [|fuel]; [lia|].
    cbn [pages] in Hrun. rewrite Hi0 in Hrun. cbn [process_items] in Hrun.
    rewrite H0 in Hrun. cbn in Hrun. congruence.
  - rewrite length_map, length_seq. reflexivity.
  - rewrite Hrem. apply Forall_forall. intros s Hs.
    apply in_map_iff in Hs as (k & <- & Hk). apply in_seq in Hk.
    assert (Hpos : 0 < total).
    { destruct total; [|lia]. unfold page_count in Hk. simpl in Hk. lia. }
    assert (Hlt : k + 1 < page_count total) by lia.
    apply (skip_lt_iff total (k + 1) Hpos) in Hlt.
    unfold pageSize in *. lia.
  - rewrite Hlast. pose proof (skip_ge total (page_count total - 1) ltac:(lia)).
    unfold pageSize in *. lia.
  - rewrite (pages_sum (page_count total) 0 ltac:(lia) H1). lia.
Qed.

End Pagination.

Definition entry_plain : entry :=
  mkEntry (Some (mkSys (js "e") None)) (Some [(js "title", JStr (js "bar"))]).

Definition items1500 (s : nat) : list entry :=
  repeat entry_plain (Nat.min pageSize (1500 - s)).

Lemma pagination_requests_witness :
  let run := searchContentful (js "Foo") (js "en-US") (js "s") (js "master") false
               (fun _ => None) (fun s => Ok (items1500 s, 1500)) 2 in
  (exists rows, fst run = Ok rows /\ (1500 = 0 -> rows = []))
  /\ snd run = map (fun k => k * pageSize) (seq 0 (page_count 1500))
  /\ List.length (snd run) = Nat.max 1 ((1500 + pageSize - 1) / pageSize)
  /\ Forall (fun s => s + pageSize < 1500) (removelast (snd run))
  /\ 1500 <= last (snd run) 0 + pageSize
  /\ list_sum (map (fun s => List.length (items1500 s)) (snd run)) = 1500.
Proof.
  apply (pagination_requests (js "Foo") (js "en-US") (js "s") (js "master") false
           (fun _ => None) 1500 items1500).
  - intros s. unfold items1500. apply repeat_length.
  - intros s. apply Forall_forall. intros e He. unfold items1500 in He.
    apply repeat_spec in He. rewrite He. reflexivity.
  - vm_compute. lia.
Defined.

(* ------------------------------------------------------------------ *)
(** * Failures inside the entry loop *)

(** An entry whose [fields] property is missing, followed by an entry
    with a case-sensitive match. *)
Definition entry_no_fields : entry := mkEntry (Some (mkSys (js "bad") None)) None.

Definition entry_foo : entry :=
  mkEntry (Some (mkSys (js "good") None)) (Some [(js "title", JStr (js "Foo"))]).

(** C4 (failing input): [Object.entries(entry.fields)] throws on the first
    entry; index.js has no try/catch around the entry loop, so the whole
    search fails and the matching second entry is never reported, while
    the same page without the broken entry reports it. *)
Theorem entry_failure_aborts_search :
  fst (searchContentful (js "Foo") (js "en-US") (js "s") (js "master") false
         (fun _ => None) (fun _ => Ok ([entry_no_fields; entry_foo], 2)) 1)
  = Err TypeError
  /\ fst (searchContentful (js "Foo") (js "en-US") (js "s") (js "master") false
            (fun _ => None) (fun _ => Ok ([entry_foo], 1)) 1)
     = Ok [mkRow (js "good") (js "Unknown") (js "title") (js "en-US")
             (entryLink (js "s") (js "master") (js "good"))
             (makeSnippet (js "Foo") (js "Foo") 0)].
Proof. split; vm_compute; reflexivity. Qed.

(* ------------------------------------------------------------------ *)
(** * Start-up configuration *)

Lemma pages_trace (term locale space_id env_id : jsstr) (debug : bool)
    (render : jsval -> option jsstr) (api : nat -> res (list entry * nat)) :
  forall fuel skip rows reqs, 1 <= fuel ->
  exists l, snd (pages term locale space_id env_id debug render api fuel skip rows reqs)
            = reqs ++ skip :: l.
Proof.
  intros [|fuel] skip rows reqs Hf; [lia|]. clear Hf.
  revert skip rows reqs. induction fuel as [|fuel IH]; intros skip rows reqs;
    [|remember (S fuel) as f1 eqn:Ef1]; cbn [pages];
    (destruct (api skip) as [[items total]|x]; [|exists []; reflexivity]);
    (destruct (process_items term locale space_id env_id debug render items rows)
       as [rows'|x]; [|exists []; reflexivity]);
    (destruct (skip + pageSize <? total); [|exists []; reflexivity]).
  - exists []. reflexivity.
  - destruct (IH (skip + pageSize) rows' (reqs ++ [skip])) as [l Hl].
    exists (skip + pageSize :: l). rewrite Hl. now rewrite <- app_assoc.
Qed.

(** C5 (defect): the start-up guard tests only the space id and the
    token, although its message and the specification require the
    environment id too.  With a term, a space id and a token, but a
    missing or empty environment id, no configuration error is raised: the
    run is the search against the environment named [interp ENVIRONMENT_ID]
    ("undefined" when unset), and its first page request is sent. *)
Theorem main_environment_unchecked (render : jsval -> option jsstr)
    (api : nat -> res (list entry * nat)) (debug : bool) (fuel : nat)
    (argv2 argv3 SPACE_ID CPA_TOKEN ENVIRONMENT_ID : option jsstr)
    (Hterm : truthy_opt argv2 = true) (Hs : truthy_opt SPACE_ID = true)
    (Ht : truthy_opt CPA_TOKEN = true) (Henv : truthy_opt ENVIRONMENT_ID = false) :
  main render api debug fuel argv2 argv3 SPACE_ID CPA_TOKEN ENVIRONMENT_ID
  = searchContentful (interp argv2) (locale_of argv3) (interp SPACE_ID)
      (interp ENVIRONMENT_ID) debug render api fuel
  /\ (1 <= fuel -> exists l,
        snd (main render api debug fuel argv2 argv3 SPACE_ID CPA_TOKEN ENVIRONMENT_ID)
        = 0 :: l).
Proof.
  unfold main. rewrite Hterm, Hs, Ht. simpl negb. simpl orb.
  split; [reflexivity|]. intros Hf.
  unfold searchContentful. apply (pages_trace _ _ _ _ _ _ _ fuel 0 [] [] Hf).
Qed.

Lemma main_environment_unchecked_witness :
  truthy_opt (Some (js "Foo")) = true /\ truthy_opt (Some (js "space")) = true /\
  truthy_opt (Some (js "token")) = true /\ truthy_opt (@None jsstr) = false /\
  (main (fun _ => None) (fun _ => Ok ([], 0)) false 1 (Some (js "Foo")) None
     (Some (js "space")) (Some (js "token")) None
   = searchContentful (interp (Some (js "Foo"))) (locale_of None) (interp (Some (js "space")))
       (interp None) false (fun _ => None) (fun _ => Ok ([], 0)) 1
   /\ (1 <= 1 -> exists l,
         snd (main (fun _ => None) (fun _ => Ok ([], 0)) false 1 (Some (js "Foo")) None
                (Some (js "space")) (Some (js "token")) None) = 0 :: l)).
Proof.
  split; [reflexivity|]. split; [reflexivity|]. split; [reflexivity|].
  split; [reflexivity|].
  apply main_environment_unchecked; reflexivity.
Defined.

(** The start-up guard: once a term is given, a missing or empty space id
    or token is a configuration error raised before any request; with
    space id and token present a first page request is always sent,
    whatever the environment id. *)
Theorem main_config_check (render : jsval -> option jsstr)
    (api : nat -> res (list entry * nat)) (debug : bool) (fuel : nat)
    (argv2 argv3 SPACE_ID CPA_TOKEN ENVIRONMENT_ID : option jsstr)
    (Hterm : truthy_opt argv2 = true) :
  ((truthy_opt SPACE_ID = false \/ truthy_opt CPA_TOKEN = false) ->
   main render api debug fuel argv2 argv3 SPACE_ID CPA_TOKEN ENVIRONMENT_ID
   = (Err (ConfigError config_msg), []))
  /\ (truthy_opt SPACE_ID = true -> truthy_opt CPA_TOKEN = true -> 1 <= fuel ->
      exists l, snd (main render api debug fuel argv2 argv3 SPACE_ID CPA_TOKEN
                       ENVIRONMENT_ID) = 0 :: l).
Proof.
  unfold main. rewrite Hterm. split.
  - intros [H|H]; rewrite H; [reflexivity|]. now rewrite orb_true_r.
  - intros Hs Ht Hf. rewrite Hs, Ht. simpl negb. simpl orb.
    unfold searchContentful. apply (pages_trace _ _ _ _ _ _ _ fuel 0 [] [] Hf).
Qed.

Lemma main_config_check_witness :
  truthy_opt (Some (js "Foo")) = true /\
  (((truthy_opt (Some (js "space")) = false \/ truthy_opt (@None jsstr) = false) ->
    main (fun _ => None) (fun _ => Ok ([], 0)) false 1 (Some (js "Foo")) None
      (Some (js "space")) None None
    = (Err (ConfigError config_msg), []))
   /\ (truthy_opt (Some (js "space")) = true -> truthy_opt (@None jsstr) = true -> 1 <= 1 ->
       exists l, snd (main (fun _ => None) (fun _ => Ok ([], 0)) false 1 (Some (js "Foo"))
                        None (Some (js "space")) None None) = 0 :: l)).
Proof.
  split; [reflexivity|].
  apply main_config_check. reflexivity.
Defined.

(* ------------------------------------------------------------------ *)
(** * The locale of the records *)

Section RowLocale.

Variables term locale space_id env_id : jsstr.
Variable debug : bool.
Variable render : jsval -> option jsstr.

Let ok_rows (rows : list row) : Prop := Forall (fun r => row_locale r = locale) rows.

Lemma field_loop_locale e fs rows rows' :
  ok_rows rows ->
  field_loop term locale space_id env_id render e fs rows = Ok rows' -> ok_rows rows'.
Proof.
  unfold ok_rows. revert rows; induction fs as [|[n fv] fs IH]; intros rows Hr H;
    simpl in H; [congruence|].
  destruct (extractStringContent render fv n locale) as [v|]; [|eauto].
  destruct (truthy_str v); [|eauto].
  unfold processStringValue in H.
  destruct (index_of term v); [|eauto].
  destruct (sys e); [|discriminate].
  injection H as <-. apply Forall_app. split; [exact Hr|]. constructor; [reflexivity|constructor].
Qed.

Lemma process_items_locale items rows rows' :
  ok_rows rows ->
  process_items term locale space_id env_id debug render items rows = Ok rows' ->
  ok_rows rows'.
Proof.
  revert rows; induction items as [|e items IH]; intros rows Hr H; simpl in H;
    [congruence|].
  destruct (process_entry term locale space_id env_id debug render e rows)
    as [r1|x] eqn:He; [|discriminate].
  apply (IH r1); [|exact H].
  unfold process_entry in He.
  destruct (if debug then match sys e with None => false | Some _ => true end
            else true); [|discriminate].
  destruct (fields e) as [fs|]; [|discriminate].
  exact (field_loop_locale e fs rows r1 Hr He).
Qed.

Lemma pages_locale api fuel skip rows reqs rows' tr :
  ok_rows rows ->
  pages term locale space_id env_id debug render api fuel skip rows reqs = (Ok rows', tr) ->
  ok_rows rows'.
Proof.
  revert skip rows reqs; induction fuel as [|fuel IH]; intros skip rows reqs Hr H;
    cbn [pages] in H; [discriminate|].
  destruct (api skip) as [[items total]|x]; [|discriminate].
  destruct (process_items term locale space_id env_id debug render items rows)
    as [r1|x] eqn:Hp; [|discriminate].
  pose proof (process_items_locale items rows r1 Hr Hp) as Hr1.
  destruct (skip + pageSize <? total); [eapply IH; eauto|congruence].
Qed.

End RowLocale.

(** C9: every record of a successful run carries the locale given on the
    command line ([process.argv[3]], "en-US" when absent or empty),
    whatever the shape of the field it was found in. *)
Theorem main_row_locale (render : jsval -> option jsstr)
    (api : nat -> res (list entry * nat)) (debug : bool) (fuel : nat)
    (argv2 argv3 SPACE_ID CPA_TOKEN ENVIRONMENT_ID : option jsstr)
    (rows : list row) (tr : list nat)
    (H : main render api debug fuel argv2 argv3 SPACE_ID CPA_TOKEN ENVIRONMENT_ID
         = (Ok rows, tr)) :
  Forall (fun r => row_locale r = locale_of argv3) rows.
Proof.
  unfold main in H.
  destruct (truthy_opt argv2); [|discriminate].
  destruct (negb (truthy_opt SPACE_ID) || negb (truthy_opt CPA_TOKEN)); [discriminate|].
  unfold searchContentful in H.
  exact (pages_locale _ _ _ _ _ _ _ _ _ _ _ _ _ (Forall_nil _) H).
Qed.

(** A plain (non-localised) string field matched in a run for "de-DE". *)
Lemma main_row_locale_witness :
  exists rows tr,
  main (fun _ => None) (fun _ => Ok ([entry_foo], 1)) false 1 (Some (js "Foo"))
    (Some (js "de-DE")) (Some (js "space")) (Some (js "token")) (Some (js "master"))
  = (Ok rows, tr) /\ rows <> [] /\
  Forall (fun r => row_locale r = locale_of (Some (js "de-DE"))) rows.
Proof.
  do 2 eexists. split; [vm_compute; reflexivity|]. split; [discriminate|].
  eapply (main_row_locale (fun _ => None) (fun _ => Ok ([entry_foo], 1)) false 1
           (Some (js "Foo")) (Some (js "de-DE")) (Some (js "space")) (Some (js "token"))
           (Some (js "master"))).
  vm_compute. reflexivity.
Defined.

(* ------------------------------------------------------------------ *)
(** * Further properties of the snippet and the link *)

Lemma firstn_min_length (n : nat) (l : jsstr) :
  firstn (Nat.min n (List.length l)) l = firstn n l.
Proof. now rewrite <- firstn_firstn, firstn_all. Qed.

(** The snippet is never longer than the term plus 64 code units: two
    30-unit context windows, two brackets and two ellipses. *)
Theorem makeSnippet_length (term txt : jsstr) (i : nat) :
  List.length (makeSnippet term txt i) <= List.length term + 64.
Proof.
  unfold makeSnippet, slice. rewrite !length_app.
  pose proof (firstn_le_length (i - (i - 30)) (skipn (i - 30) txt)).
  pose proof (firstn_le_length (i + List.length term + 30 - (i + List.length term))
                (skipn (i + List.length term) txt)).
  destruct (30 <? i); destruct (_ <? _); simpl List.length; lia.
Qed.

(** When at most 30 code units precede and follow the match, the snippet
    is the whole text with the match wrapped in brackets, and dropping the
    brackets gives the text back. *)
Theorem makeSnippet_short (term txt : jsstr) (i : nat)
    (Hocc : occurs_at term txt i) (Hpre : i <= 30)
    (Hpost : List.length txt - (i + List.length term) <= 30) :
  makeSnippet term txt i
    = firstn i txt ++ [lbracket] ++ term ++ [rbracket] ++ skipn (i + List.length term) txt
  /\ firstn i txt ++ term ++ skipn (i + List.length term) txt = txt.
Proof.
  unfold occurs_at in Hocc. apply starts_with_app in Hocc as [b Hb].
  assert (Hsk : skipn (i + List.length term) txt = b).
  { rewrite Nat.add_comm, <- skipn_skipn, Hb, skipn_app, skipn_all, Nat.sub_diag.
    reflexivity. }
  split.
  - unfold makeSnippet, slice.
    replace (i - 30) with 0 by lia. rewrite Nat.sub_0_r. simpl skipn.
    replace (i + List.length term + 30 - (i + List.length term)) with 30 by lia.
    rewrite (firstn_all2 (n := 30)) by (rewrite length_skipn; lia).
    destruct (Nat.ltb_spec 30 i); [lia|].
    destruct (Nat.ltb_spec (i + List.length term + 30) (List.length txt)); [lia|].
    rewrite !app_nil_r. reflexivity.
  - rewrite Hsk, <- Hb. apply firstn_skipn.
Qed.

Lemma makeSnippet_short_witness :
  occurs_at (js "ProductName") (js "The ProductName Pro") 4 /\ 4 <= 30 /\
  List.length (js "The ProductName Pro") - (4 + List.length (js "ProductName")) <= 30 /\
  (makeSnippet (js "ProductName") (js "The ProductName Pro") 4
    = firstn 4 (js "The ProductName Pro") ++ [lbracket] ++ js "ProductName" ++ [rbracket]
      ++ skipn (4 + List.length (js "ProductName")) (js "The ProductName Pro")
  /\ firstn 4 (js "The ProductName Pro") ++ js "ProductName"
     ++ skipn (4 + List.length (js "ProductName")) (js "The ProductName Pro")
     = js "The ProductName Pro").
Proof.
  split; [reflexivity|]. split; [lia|]. split; [vm_compute; lia|].
  apply makeSnippet_short; [reflexivity | lia | vm_compute; lia].
Defined.

(** The DEBUG "Context" line shows the same window as the snippet: the
    same text between the markers, with "..." exactly where the snippet
    has "…". *)
Theorem debugContext_snippet (term value : jsstr) (idx : nat)
    (Hterm : term <> []) (Hocc : occurs_at term value idx) :
  exists body,
    debugContext term value idx
      = (if 30 <? idx then js "..." else []) ++ body
        ++ (if idx + List.length term + 30 <? List.length value then js "..." else [])
    /\ makeSnippet term value idx
      = (if 30 <? idx then [ellipsis] else []) ++ body
        ++ (if idx + List.length term + 30 <? List.length value then [ellipsis] else []).
Proof.
  assert (Hn : List.length term <> 0) by (now rewrite length_zero_iff_nil).
  pose proof (starts_with_length _ _ Hocc) as Hlen. rewrite length_skipn in Hlen.
  unfold occurs_at in Hocc. apply starts_with_app in Hocc as [b Hb].
  set (n := List.length term) in *. set (L := List.length value) in *.
  exists (slice value (idx - 30) idx ++ [lbracket] ++ term ++ [rbracket]
          ++ slice value (idx + n) (idx + n + 30)).
  split; [|unfold makeSnippet; fold n L; now rewrite <- !app_assoc].
  unfold debugContext, substring. fold n L.
  replace (Nat.min (idx - 30) L) with (idx - 30) by lia.
  replace (Nat.min idx L) with idx by lia.
  replace (Nat.min (idx - 30) idx) with (idx - 30) by lia.
  replace (Nat.max (idx - 30) idx) with idx by lia.
  replace (Nat.min (idx + n) L) with (idx + n) by lia.
  replace (Nat.min idx (idx + n)) with idx by lia.
  replace (Nat.max idx (idx + n)) with (idx + n) by lia.
  replace (Nat.min (Nat.min L (idx + n + 30)) L) with (Nat.min L (idx + n + 30)) by lia.
  replace (Nat.min (idx + n) (Nat.min L (idx + n + 30))) with (idx + n) by lia.
  replace (Nat.max (idx + n) (Nat.min L (idx + n + 30))) with (Nat.min L (idx + n + 30))
    by lia.
  assert (Hmid : slice value idx (idx + n) = term).
  { unfold slice. replace (idx + n - idx) with n by lia. rewrite Hb.
    rewrite firstn_app, Nat.sub_diag, firstn_O, app_nil_r. apply firstn_all. }
  assert (Hpost : slice value (idx + n) (Nat.min L (idx + n + 30))
                  = slice value (idx + n) (idx + n + 30)).
  { unfold slice.
    replace (Nat.min L (idx + n + 30) - (idx + n))
      with (Nat.min 30 (List.length (skipn (idx + n) value)))
      by (rewrite length_skipn; lia).
    rewrite firstn_min_length. f_equal. lia. }
  rewrite Hmid, Hpost.
  replace (0 <? idx - 30) with (30 <? idx)
    by (destruct (Nat.ltb_spec 30 idx), (Nat.ltb_spec 0 (idx - 30)); auto; lia).
  replace (Nat.min L (idx + n + 30) <? L) with (idx + n + 30 <? L)
    by (destruct (Nat.ltb_spec (idx + n + 30) L),
                 (Nat.ltb_spec (Nat.min L (idx + n + 30)) L); auto; lia).
  now rewrite <- !app_assoc.
Qed.

Lemma debugContext_snippet_witness :
  js "Foo" <> [] /\ occurs_at (js "Foo") (js "a fairly long prefix of text before Foo") 36 /\
  exists body,
    debugContext (js "Foo") (js "a fairly long prefix of text before Foo") 36
      = (if 30 <? 36 then js "..." else []) ++ body
        ++ (if 36 + List.length (js "Foo") + 30
               <? List.length (js "a fairly long prefix of text before Foo")
            then js "..." else [])
    /\ makeSnippet (js "Foo") (js "a fairly long prefix of text before Foo") 36
      = (if 30 <? 36 then [ellipsis] else []) ++ body
        ++ (if 36 + List.length (js "Foo") + 30
               <? List.length (js "a fairly long prefix of text before Foo")
            then [ellipsis] else []).
Proof.
  split; [discriminate|]. split; [reflexivity|].
  apply debugContext_snippet; [discriminate | reflexivity].
Defined.

(** Links of distinct entry ids are distinct. *)
Theorem entryLink_injective (space_id env_id id1 id2 : jsstr) :
  entryLink space_id env_id id1 = entryLink space_id env_id id2 -> id1 = id2.
Proof.
  unfold entryLink. intros H.
  repeat (apply app_inv_head in H). exact H.
Qed.

Lemma entryLink_injective_witness :
  entryLink (js "s") (js "master") (js "e2") = entryLink (js "s") (js "master") (js "e2")
  /\ js "e2" = js "e2".
Proof.
  split; [reflexivity|].
  apply (entryLink_injective (js "s") (js "master")). reflexivity.
Defined.

(* ------------------------------------------------------------------ *)
(** * Run-level properties of the driver *)

Section Driver.

Variables term locale space_id env_id : jsstr.
Variable render : jsval -> option jsstr.

(** The row a field loop adds describes the entry it came from. *)
Definition row_of_entry (items : list entry) (r : row) : Prop :=
  exists e sy, In e items /\ sys e = Some sy /\ row_id r = sys_id sy
    /\ row_contentType r = contentTypeOf sy
    /\ row_link r = entryLink space_id env_id (sys_id sy).

Lemma field_loop_adds (e : entry) fs rows rows' :
  field_loop term locale space_id env_id render e fs rows = Ok rows' ->
  rows' = rows \/
  exists r sy, rows' = rows ++ [r] /\ sys e = Some sy /\ row_id r = sys_id sy
    /\ row_contentType r = contentTypeOf sy
    /\ row_link r = entryLink space_id env_id (sys_id sy).
Proof.
  revert rows; induction fs as [|[n fv] fs IH]; intros rows H; simpl in H;
    [left; congruence|].
  destruct (extractStringContent render fv n locale) as [v|]; [|eauto].
  destruct (truthy_str v); [|eauto].
  unfold processStringValue in H.
  destruct (index_of term v); [|eauto].
  destruct (sys e) as [sy|]; [|discriminate].
  injection H as <-. right. eexists _, sy. repeat split; reflexivity.
Qed.

(** The rows a page adds describe entries of that page. *)
Lemma process_items_from_page (debug : bool) (items : list entry) (rows rows' : list row)
    (H : process_items term locale space_id env_id debug render items rows = Ok rows') :
  exists fresh, rows' = rows ++ fresh
    /\ List.length fresh <= List.length items
    /\ Forall (row_of_entry items) fresh.
Proof.
  revert rows H; induction items as [|e items IH]; intros rows H; simpl in H.
  - injection H as <-. exists []. rewrite app_nil_r. repeat split; constructor.
  - destruct (process_entry term locale space_id env_id debug render e rows)
      as [r1|x] eqn:He; [|discriminate].
    destruct (IH r1 H) as (fresh & -> & Hlen & Hall).
    assert (Hmono : forall l, Forall (row_of_entry items) l ->
                             Forall (row_of_entry (e :: items)) l).
    { intros l. apply Forall_impl. intros r (e' & sy & Hin & Hrest).
      exists e', sy. split; [now right|exact Hrest]. }
    unfold process_entry in He.
    destruct (if debug then match sys e with None => false | Some _ => true end
              else true); [|discriminate].
    destruct (fields e) as [fs|]; [|discriminate].
    destruct (field_loop_adds e fs rows r1 He) as [->|(r & sy & -> & Hs & Hid & Hct & Hl)].
    + exists fresh. simpl. repeat split; [lia|now apply Hmono].
    + exists (r :: fresh). rewrite <- app_assoc. simpl. split; [reflexivity|].
      split; [lia|]. constructor; [|now apply Hmono].
      exists e, sy. split; [now left|]. auto.
Qed.

(** A page only appends rows, entry by entry: the earlier rows stay in
    place, and each entry of the page contributes at most one row, which
    describes that entry. *)
Theorem process_items_appends (debug : bool) (items : list entry) (rows rows' : list row)
    (H : process_items term locale space_id env_id debug render items rows = Ok rows') :
  exists chunks : list (list row), rows' = rows ++ List.concat chunks
    /\ Forall2 (fun e c => List.length c <= 1 /\ Forall (row_of_entry [e]) c) items chunks.
Proof.
  revert rows H; induction items as [|e items IH]; intros rows H; simpl in H.
  - injection H as <-. exists []. rewrite app_nil_r. split; [reflexivity|constructor].
  - destruct (process_entry term locale space_id env_id debug render e rows)
      as [r1|x] eqn:He; [|discriminate].
    destruct (IH r1 H) as (chunks & -> & Hall).
    unfold process_entry in He.
    destruct (if debug then match sys e with None => false | Some _ => true end
              else true); [|discriminate].
    destruct (fields e) as [fs|]; [|discriminate].
    destruct (field_loop_adds e fs rows r1 He) as [->|(r & sy & -> & Hs & Hid & Hct & Hl)].
    + exists ([] :: chunks). split; [reflexivity|].
      constructor; [split; [simpl; lia|constructor]|exact Hall].
    + exists ([r] :: chunks). split; [simpl; now rewrite <- app_assoc|].
      constructor; [|exact Hall]. split; [simpl; lia|].
      constructor; [|constructor]. exists e, sy. split; [now left|]. auto.
Qed.


Lemma pages_prefix (debug : bool) (api : nat -> res (list entry * nat)) :
  forall fuel skip rows reqs, exists l,
    snd (pages term locale space_id env_id debug render api fuel skip rows reqs)
    = reqs ++ l.
Proof.
  induction fuel as [|fuel IH]; intros skip rows reqs; cbn [pages].
  - exists []. now rewrite app_nil_r.
  - destruct (api skip) as [[items total]|x]; [|eexists; reflexivity].
    destruct (process_items term locale space_id env_id debug render items rows)
      as [r1|x]; [|eexists; reflexivity].
    destruct (skip + pageSize <? total); [|eexists; reflexivity].
    destruct (IH (skip + pageSize) r1 (reqs ++ [skip])) as [l Hl].
    rewrite Hl. exists (skip :: l). now rewrite <- app_assoc.
Qed.

Lemma pages_stop (debug : bool) (api : nat -> res (list entry * nat)) :
  forall fuel skip rows reqs r fresh,
    pages term locale space_id env_id debug render api fuel skip rows reqs
    = (r, reqs ++ fresh) ->
    forall s x, In s fresh -> api s = Err x -> r = Err x /\ last fresh 0 = s.
Proof.
  induction fuel as [|fuel IH]; intros skip rows reqs r fresh H s x Hin Hs;
    cbn [pages] in H.
  - injection H as _ H. rewrite <- (app_nil_r reqs) in H at 1.
    apply app_inv_head in H. subst fresh. destruct Hin.
  - destruct (api skip) as [[items total]|y] eqn:Ha.
    + destruct (process_items term locale space_id env_id debug render items rows)
        as [r1|y].
      * destruct (skip + pageSize <? total).
        -- destruct (pages_prefix debug api fuel (skip + pageSize) r1 (reqs ++ [skip]))
             as [l Hl].
           rewrite H in Hl. simpl in Hl. rewrite <- app_assoc in Hl.
           apply app_inv_head in Hl. subst fresh.
           destruct Hin as [<-|Hin]; [congruence|].
           replace (reqs ++ [skip] ++ l) with ((reqs ++ [skip]) ++ l) in H
             by (now rewrite <- app_assoc).
           destruct (IH _ _ _ _ _ H s x Hin Hs) as [Hr Hlast].
           split; [exact Hr|]. destruct l; [destruct Hin|]. exact Hlast.
        -- injection H as _ H. apply app_inv_head in H. subst fresh.
           destruct Hin as [<-|[]]. congruence.
      * injection H as _ H. apply app_inv_head in H. subst fresh.
        destruct Hin as [<-|[]]. congruence.
    + injection H as Hr H. apply app_inv_head in H. subst fresh.
      destruct Hin as [<-|[]]. rewrite Hs in Ha. injection Ha as ->.
      split; [congruence|reflexivity].
Qed.

(** A failed API request ends the run: the run fails with that request's
    error and no further page is requested. *)
Theorem search_stops_at_failed_request (debug : bool)
    (api : nat -> res (list entry * nat)) (fuel : nat) (r : res (list row))
    (tr : list nat) (s : nat) (x : exn)
    (H : searchContentful term locale space_id env_id debug render api fuel = (r, tr))
    (Hin : In s tr) (Hs : api s = Err x) :
  r = Err x /\ last tr 0 = s.
Proof.
  unfold searchContentful in H. rewrite <- (app_nil_l tr) in H.
  exact (pages_stop debug api fuel 0 [] [] r tr H s x Hin Hs).
Qed.

(** Every row of a successful run describes an entry of one of the pages
    the run requested. *)
Theorem search_rows_from_pages (debug : bool)
    (api : nat -> res (list entry * nat)) (fuel : nat) (rows : list row)
    (tr : list nat)
    (H : searchContentful term locale space_id env_id debug render api fuel = (Ok rows, tr)) :
  Forall (fun r => exists s items total, In s tr /\ api s = Ok (items, total)
                                      /\ row_of_entry items r) rows.
Proof.
  unfold searchContentful in H.
  cut (forall fuel skip rows0 reqs rows tr,
         Forall (fun r => exists s items total, In s reqs /\ api s = Ok (items, total)
                                             /\ row_of_entry items r) rows0 ->
         pages term locale space_id env_id debug render api fuel skip rows0 reqs
         = (Ok rows, tr) ->
         Forall (fun r => exists s items total, In s tr /\ api s = Ok (items, total)
                                             /\ row_of_entry items r) rows).
  { intros Hgen. exact (Hgen fuel 0 [] [] rows tr (Forall_nil _) H). }
  clear fuel rows tr H.
  induction fuel as [|fuel IH]; intros skip rows0 reqs rows tr H0 H; cbn [pages] in H;
    [discriminate|].
  destruct (api skip) as [[items total]|y] eqn:Ha; [|discriminate].
  destruct (process_items term locale space_id env_id debug render items rows0)
    as [r1|y] eqn:Hp; [|discriminate].
  assert (H1 : Forall (fun r => exists s items total, In s (reqs ++ [skip])
                        /\ api s = Ok (items, total) /\ row_of_entry items r) r1).
  { destruct (process_items_from_page debug items rows0 r1 Hp) as (fresh & -> & _ & Hf).
    apply Forall_app. split.
    - eapply Forall_impl; [|exact H0]. intros r (s & its & t & Hin & Hrest).
      exists s, its, t. split; [apply in_or_app; now left|exact Hrest].
    - eapply Forall_impl; [|exact Hf]. intros r Hr.
      exists skip, items, total. split; [apply in_or_app; right; now left|].
      split; [exact Ha|exact Hr]. }
  destruct (skip + pageSize <? total).
  - exact (IH _ _ _ _ _ H1 H).
  - injection H as <- <-. exact H1.
Qed.

End Driver.

Lemma process_items_appends_witness :
  exists rows',
  process_items (js "Foo") (js "en-US") (js "s") (js "master") false (fun _ => None)
    [entry2; entry_plain; entry_foo] [] = Ok rows' /\
  exists chunks : list (list row), rows' = [] ++ List.concat chunks
    /\ Forall2 (fun e c => List.length c <= 1
                  /\ Forall (row_of_entry (js "s") (js "master") [e]) c)
         [entry2; entry_plain; entry_foo] chunks.
Proof.
  eexists. split; [vm_compute; reflexivity|].
  eapply (process_items_appends (js "Foo") (js "en-US") (js "s") (js "master")
            (fun _ => None) false).
  vm_compute. reflexivity.
Defined.

Definition api_fail_second (s : nat) : res (list entry * nat) :=
  if s =? 0 then Ok ([entry_foo], 2000) else Err TransportError.

Lemma search_stops_at_failed_request_witness :
  searchContentful (js "Foo") (js "en-US") (js "s") (js "master") false (fun _ => None)
    api_fail_second 5
  = (Err TransportError, [0; 1000]) /\
  Err TransportError = @Err (list row) TransportError /\ last [0; 1000] 0 = 1000.
Proof.
  split; [vm_compute; reflexivity|].
  apply (search_stops_at_failed_request (js "Foo") (js "en-US") (js "s") (js "master")
           (fun _ => None) false api_fail_second 5).
  - vm_compute. reflexivity.
  - right. left. reflexivity.
  - reflexivity.
Defined.

Lemma search_rows_from_pages_witness :
  exists rows tr,
  searchContentful (js "Foo") (js "en-US") (js "s") (js "master") false (fun _ => None)
    (fun _ => Ok ([entry_plain; entry_foo], 2)) 1 = (Ok rows, tr) /\ rows <> [] /\
  Forall (fun r => exists s items total, In s tr
            /\ (fun _ : nat => @Ok (list entry * nat) ([entry_plain; entry_foo], 2)) s
               = Ok (items, total)
            /\ row_of_entry (js "s") (js "master") items r) rows.
Proof.
  do 2 eexists. split; [vm_compute; reflexivity|]. split; [discriminate|].
  eapply (search_rows_from_pages (js "Foo") (js "en-US") (js "s") (js "master")
            (fun _ => None) false (fun _ => Ok ([entry_plain; entry_foo], 2)) 1).
  vm_compute. reflexivity.
Defined.

(* ------------------------------------------------------------------ *)
(** * The part_001 and part_002 variants *)

(** The part_001 row of an index.js row. *)
Definition to_row1 (r : row) : row1 :=
  mkRow1 (row_id r) (row_fieldName r) (row_link r) (row_snippet r).

Section VariantProps.

Variables term locale space_id env_id : jsstr.
Variable render : jsval -> option jsstr.

(** In both variants, entries without [sys] or [fields] are dropped by the
    try/catch: a page gives the same rows as the page without them. *)
Theorem process_items_var_skips_malformed
    (loop : jsstr -> list (jsstr * jsval) -> list row1 -> list row1)
    (items : list entry) (rows : list row1) :
  process_items_var loop items rows
  = process_items_var loop (filter wf_entry items) rows.
Proof.
  revert rows; induction items as [|e items IH]; intros rows; [reflexivity|].
  change (filter wf_entry (e :: items))
    with (if wf_entry e then e :: filter wf_entry items else filter wf_entry items).
  unfold wf_entry at 1.
  destruct (sys e) as [sy|] eqn:Hs; destruct (fields e) as [fs|] eqn:Hf;
    cbn [process_items_var]; rewrite ?Hs, ?Hf; apply IH.
Qed.

(** For an entry with [sys] whose id differs from the last reported row,
    the part_001 field loop reports the same field, link and snippet as
    the index.js one. *)
Theorem field_loop_001_agrees (e : entry) (sy : sysinfo) (fs : list (jsstr * jsval))
    (rows : list row) (rows1 : list row1)
    (Hs : sys e = Some sy) (Hlast : same_as_last (sys_id sy) rows1 = false) :
  exists fresh,
    field_loop term locale space_id env_id render e fs rows = Ok (rows ++ fresh)
    /\ field_loop_001 term locale space_id env_id render (sys_id sy) fs rows1
       = rows1 ++ map to_row1 fresh.
Proof.
  revert rows; induction fs as [|[n fv] fs IH]; intros rows.
  - exists []. rewrite !app_nil_r. split; reflexivity.
  - simpl. rewrite Hlast.
    destruct (extractStringContent render fv n locale) as [v|]; [|apply IH].
    destruct (truthy_str v); [|apply IH].
    unfold processStringValue. destruct (index_of term v) as [i|]; [|apply IH].
    rewrite Hs. eexists. split; reflexivity.
Qed.

(** In part_001, once the last reported row carries this entry's id, a
    first field without a match ends the entry: no later field is
    looked at. *)
Theorem field_loop_001_repeated_id (id : jsstr) (rows1 : list row1)
    (Hlast : same_as_last id rows1 = true) (f : jsstr * jsval)
    (fs fs' : list (jsstr * jsval)) :
  field_loop_001 term locale space_id env_id render id (f :: fs) rows1
  = field_loop_001 term locale space_id env_id render id (f :: fs') rows1.
Proof. destruct f as [n fv]. simpl. now rewrite Hlast. Qed.

(** In part_002 plain-string fields go through processStringValue and
    [continue], skipping the duplicate check: an entry of plain-string
    fields gets one row per field containing the term, in field order. *)
Theorem field_loop_002_plain_strings (id : jsstr) (ps : list (jsstr * jsstr))
    (rows : list row1) :
  field_loop_002 term locale space_id env_id render id
    (map (fun p => (fst p, JStr (snd p))) ps) rows
  = rows ++ flat_map (fun p => match index_of term (snd p) with
                               | Some i => [mkRow1' term space_id env_id id (fst p) (snd p) i]
                               | None => []
                               end) ps.
Proof.
  revert rows; induction ps as [|[n s] ps IH]; intros rows; simpl.
  - now rewrite app_nil_r.
  - rewrite IH. unfold processStringValue_002.
    destruct (index_of term s); [now rewrite <- app_assoc | reflexivity].
Qed.

End VariantProps.

Lemma field_loop_001_agrees_witness :
  sys entry2 = Some (mkSys (js "e2") (Some (js "page"))) /\
  same_as_last (js "e2") [] = false /\
  exists fresh,
    field_loop (js "Foo") (js "en-US") (js "s") (js "master") (fun _ => None) entry2
      [(js "title", JStr (js "Foo one")); (js "body", JStr (js "Foo two"))] [] = Ok ([] ++ fresh)
    /\ field_loop_001 (js "Foo") (js "en-US") (js "s") (js "master") (fun _ => None)
         (js "e2") [(js "title", JStr (js "Foo one")); (js "body", JStr (js "Foo two"))] []
       = [] ++ map to_row1 fresh.
Proof.
  split; [reflexivity|]. split; [reflexivity|].
  apply (field_loop_001_agrees (js "Foo") (js "en-US") (js "s") (js "master")
           (fun _ => None) entry2 (mkSys (js "e2") (Some (js "page")))); reflexivity.
Defined.

Definition row_e2 : row1 := mkRow1 (js "e2") (js "title") [] [].

Lemma field_loop_001_repeated_id_witness :
  same_as_last (js "e2") [row_e2] = true /\
  field_loop_001 (js "Foo") (js "en-US") (js "s") (js "master") (fun _ => None) (js "e2")
    [(js "title", JStr (js "bar")); (js "body", JStr (js "Foo"))] [row_e2]
  = field_loop_001 (js "Foo") (js "en-US") (js "s") (js "master") (fun _ => None) (js "e2")
      [(js "title", JStr (js "bar"))] [row_e2].
Proof.
  split; [reflexivity|].
  apply field_loop_001_repeated_id. reflexivity.
Defined.
